(** * A shallow embedding of the action-driven state machine framework

    The framework is the Go code listed in the article "A Simple State
    Machine Framework in Go": the types [StateType], [EventType], [Action],
    [Events], [State], [States], [StateMachine], the method [getNextState]
    and the method [SendEvent], together with the light switch machine
    [newLightSwitchFSM].

    Modelling choices.
    - [StateType] and [EventType] are Go strings: [string].
    - [Events] and [States] are Go maps: stdpp's [gmap].  A Go map field can
      be [nil]; [getNextState] tests for it, so the [Events] field of a
      [State] is an [option].
    - [Action] is a Go interface with one method [Execute].  A [nil]
      interface value is [None].  [Execute] is arbitrary host code: it is a
      function on the world [W] it can reach (the event context it is
      handed and whatever else it prints to or updates), returning the new
      world and the next event.  These actions do not hold the machine
      itself and do not panic; the module [Host] models the actions that
      do, and [Host_SendEvent_pure] shows that the two models of
      [SendEvent] agree on the actions that do not.
    - Calling [Execute] on a [nil] interface is a run-time panic in Go; the
      outcome [Panicked] records it.
    - [SendEvent] is an unbounded [for] loop; the embedding takes fuel (the
      number of loop iterations allowed) and answers [None] when it runs
      out.
    - The mutex is taken on entry and released by [defer] on every exit;
      the embedding is of one call at a time, where both are no-ops. *)

From Stdlib Require Import Ascii.
From stdpp Require Import gmap strings list.

Open Scope string_scope.

(** ** Identifiers and the error value *)

Abbreviation StateType := string (only parsing).
Abbreviation EventType := string (only parsing).

(** [Default StateType = ""] *)
Definition Default : StateType := "".

(** [NoOp EventType = "NoOp"] *)
Definition NoOp : EventType := "NoOp".

(** [var ErrEventRejected = errors.New("event rejected")], the only error
    value the framework declares. *)
Inductive error : Set := ErrEventRejected.

(** How a call ends: by one of its [return] statements, with Go's [nil]
    error as [None], or by the panic of a method call on a nil interface. *)
Inductive Outcome : Set :=
| Returned (err : option error)
| Panicked.

(** What a call does that an observer of the machine can see, in program
    order: an assignment of [Previous] and [Current] (the two fields as
    they read right after the assignment), and a call of the action bound
    to a state together with the event it returned. *)
Inductive Obs : Set :=
| ObsTransition (previous current : StateType)
| ObsExecute (state : StateType) (returned : EventType).

Section Framework.

(** The world the actions act on. *)
Variable W : Type.

(** [type Action interface { Execute(eventCtx EventContext) EventType }] *)
Definition Action : Type := W → W * EventType.

(** [type Events map[EventType]StateType] *)
Definition Events : Type := gmap string string.

(** [type State struct { Action Action; Events Events }] *)
Record State : Type := mkState {
  Action_of : option Action;
  Events_of : option Events
}.

(** The zero value of [State], which a failed map lookup yields. *)
Definition zeroState : State := mkState None None.

(** [type States map[StateType]State] *)
Definition States : Type := gmap string State.

(** [type StateMachine struct { Previous, Current StateType; States States;
    mutex sync.Mutex }] *)
Record StateMachine : Type := mkStateMachine {
  Previous : StateType;
  Current : StateType;
  States_of : gmap string State
}.

(** [getNextState]: the next state for the event given the machine's
    current state, or the error if the event cannot be handled there. *)
Definition getNextState (s : StateMachine) (event : EventType)
  : StateType * option error :=
  match States_of s !! Current s with
  | Some state =>
      match Events_of state with
      | Some events =>
          match events !! event with
          | Some next => (next, None)
          | None => (Default, Some ErrEventRejected)
          end
      | None => (Default, Some ErrEventRejected)
      end
  | None => (Default, Some ErrEventRejected)
  end.

(** The two assignments [s.Previous = s.Current; s.Current = nextState]. *)
Definition transition (s : StateMachine) (nextState : StateType) : StateMachine :=
  {| Previous := Current s; Current := nextState; States_of := States_of s |}.

(** How one turn of the loop ends. *)
Inductive Flow : Type :=
| Again (event : EventType)
| Exit (o : Outcome).

(** One turn of the [for] loop of [SendEvent].  The branch
    [if !ok || state.Action == nil] has an empty body, so the turn goes on
    to the assignments whatever the lookup gave; the call of [Execute] on
    a nil [Action] then panics. *)
Definition iteration (s : StateMachine) (w : W) (event : EventType)
  : StateMachine * W * list Obs * Flow :=
  let '(nextState, err) := getNextState s event in
  match err with
  | Some _ => (s, w, [], Exit (Returned (Some ErrEventRejected)))
  | None =>
      let state := default zeroState (States_of s !! nextState) in
      let s' := transition s nextState in
      let moved := ObsTransition (Previous s') (Current s') in
      match Action_of state with
      | None => (s', w, [moved], Exit Panicked)
      | Some action =>
          let '(w', nextEvent) := action w in
          (s', w', [moved; ObsExecute nextState nextEvent],
           if decide (nextEvent = NoOp) then Exit (Returned None)
           else Again nextEvent)
      end
  end.

(** The result of a call that ended. *)
Record Result : Type := mkResult {
  machine : StateMachine;
  world : W;
  trace : list Obs;
  outcome : Outcome
}.

Definition observed (obs : list Obs) (r : Result) : Result :=
  {| machine := machine r; world := world r;
     trace := obs ++ trace r; outcome := outcome r |}.

(** [SendEvent], with [fuel] turns of the loop allowed. *)
Fixpoint SendEvent (fuel : nat) (s : StateMachine) (event : EventType) (w : W)
  : option Result :=
  match fuel with
  | O => None
  | S fuel' =>
      let '(s', w', obs, flow) := iteration s w event in
      match flow with
      | Exit o => Some (mkResult s' w' obs o)
      | Again nextEvent => observed obs <$> SendEvent fuel' s' nextEvent w'
      end
  end.

End Framework.

Arguments mkState {W} _ _.
Arguments Action_of {W} _.
Arguments Events_of {W} _.
Arguments zeroState {W}.
Arguments mkStateMachine {W} _ _ _.
Arguments Previous {W} _.
Arguments Current {W} _.
Arguments States_of {W} _.
Arguments getNextState {W} _ _.
Arguments transition {W} _ _.
Arguments iteration {W} _ _ _.
Arguments mkResult {W} _ _ _ _.
Arguments machine {W} _.
Arguments world {W} _.
Arguments trace {W} _.
Arguments outcome {W} _.
Arguments observed {W} _ _.
Arguments SendEvent {W} _ _ _ _.

(** ** Finished calls

    [finishes s event w r]: the call of [SendEvent] with [event] on the
    machine [s] in the world [w] ends with the result [r].  One rule for
    each way a turn of the loop can go; the relation is shown below to hold
    exactly of the results that [SendEvent] gives with enough fuel. *)
Inductive finishes {W} :
  StateMachine W → EventType → W → Result W → Prop :=
| finishes_rejected s event w :
    getNextState s event = (Default, Some ErrEventRejected) →
    finishes s event w
      {| machine := s; world := w; trace := [];
         outcome := Returned (Some ErrEventRejected) |}
| finishes_panicked s event w next :
    getNextState s event = (next, None) →
    Action_of (default zeroState (States_of s !! next)) = None →
    finishes s event w
      {| machine := transition s next; world := w;
         trace := [ObsTransition (Current s) next];
         outcome := Panicked |}
| finishes_done s event w next action :
    getNextState s event = (next, None) →
    Action_of (default zeroState (States_of s !! next)) = Some action →
    (action w).2 = NoOp →
    finishes s event w
      {| machine := transition s next; world := (action w).1;
         trace := [ObsTransition (Current s) next; ObsExecute next NoOp];
         outcome := Returned None |}
| finishes_cascade s event w next action r :
    getNextState s event = (next, None) →
    Action_of (default zeroState (States_of s !! next)) = Some action →
    (action w).2 ≠ NoOp →
    finishes (transition s next) (action w).2 (action w).1 r →
    finishes s event w
      (observed [ObsTransition (Current s) next;
                 ObsExecute next (action w).2] r).

(** All the actions of a machine return [NoOp], whatever the world. *)
Definition all_actions_return_NoOp {W} (s : StateMachine W) : Prop :=
  ∀ name state action w,
    States_of s !! name = Some state →
    Action_of state = Some action →
    (action w).2 = NoOp.

(** ** Reading a trace *)

(** The assignments of [Previous] and [Current] in a trace, in order. *)
Fixpoint transitions (tr : list Obs) : list (StateType * StateType) :=
  match tr with
  | [] => []
  | ObsTransition p c :: tr' => (p, c) :: transitions tr'
  | ObsExecute _ _ :: tr' => transitions tr'
  end.

(** The action calls in a trace, in order: the state whose action ran and
    the event it returned. *)
Fixpoint executions (tr : list Obs) : list (StateType * EventType) :=
  match tr with
  | [] => []
  | ObsTransition _ _ :: tr' => executions tr'
  | ObsExecute st e :: tr' => (st, e) :: executions tr'
  end.

(** The event the loop holds after the observations [tr], having started
    with [event]: the one the last action call returned, if any. *)
Definition pending (event : EventType) (tr : list Obs) : EventType :=
  default event (snd <$> last (executions tr)).


(** Follows a trace from the fields [previous] and [current]: an assignment
    must set [Previous] to what [Current] was, and an action must run in the
    state that [Current] already names.  Gives the fields at the end. *)
Fixpoint replay (previous current : StateType) (tr : list Obs)
  : option (StateType * StateType) :=
  match tr with
  | [] => Some (previous, current)
  | ObsTransition p c :: tr' =>
      if decide (p = current) then replay p c tr' else None
  | ObsExecute st _ :: tr' =>
      if decide (st = current) then replay previous current tr' else None
  end.

(** ** The light switch machine *)

Definition Off : StateType := "Off".
Definition On : StateType := "On".
Definition SwitchOff : EventType := "SwitchOff".
Definition SwitchOn : EventType := "SwitchOn".

(** The actions print a line; the world is the lines printed so far. *)
Definition OffAction : Action (list string) :=
  λ out, ((out ++ ["The light has been switched off"])%list, NoOp).

Definition OnAction : Action (list string) :=
  λ out, ((out ++ ["The light has been switched on"])%list, NoOp).

(** [newLightSwitchFSM]: the fields the literal leaves out are zero, so the
    machine rests in [Default], and the [Default] state has no action. *)
Definition newLightSwitchFSM : StateMachine (list string) :=
  {| Previous := "";
     Current := "";
     States_of :=
       {[ Default := {| Action_of := None;
                        Events_of := Some {[ SwitchOff := Off ]} |};
          Off := {| Action_of := Some OffAction;
                    Events_of := Some {[ SwitchOn := On ]} |};
          On := {| Action_of := Some OnAction;
                   Events_of := Some {[ SwitchOff := Off ]} |} ]} |}.

(** Calls one after the other on the same machine: each call starts from
    the machine and the world the one before left.  Gives the outcomes in
    order and the last result; [None] if a call ran out of fuel. *)
Fixpoint SendEvents {W} (fuel : nat) (s : StateMachine W) (w : W)
    (events : list EventType) : option (list Outcome * StateMachine W * W) :=
  match events with
  | [] => Some ([], s, w)
  | event :: rest =>
      r ← SendEvent fuel s event w;
      '(outs, s', w') ← SendEvents fuel (machine r) (world r) rest;
      Some (outcome r :: outs, s', w')
  end.

(** ** Machines used as examples *)

(** The light switch with the declaration of [Off] left out. *)
Definition undeclaredOff : StateMachine (list string) :=
  {| Previous := "";
     Current := "";
     States_of :=
       {[ Default := {| Action_of := None;
                        Events_of := Some {[ SwitchOff := Off ]} |} ]} |}.

(** The light switch with [Off] declared but its action left out. *)
Definition actionlessOff : StateMachine (list string) :=
  {| Previous := "";
     Current := "";
     States_of :=
       {[ Default := {| Action_of := None;
                        Events_of := Some {[ SwitchOff := Off ]} |};
          Off := {| Action_of := None;
                    Events_of := Some {[ SwitchOn := On ]} |} ]} |}.


(** A machine whose ["Busy"] action asks for ["Finish"], which ["Busy"]
    routes to ["Done"], whose action asks for nothing more. *)
Definition twoStepCascade : StateMachine nat :=
  {| Previous := "";
     Current := "";
     States_of :=
       {[ Default := {| Action_of := None;
                        Events_of := Some {[ "Start" := "Busy" ]} |};
          "Busy" := {| Action_of := Some (λ n, (S n, "Finish"));
                       Events_of := Some {[ "Finish" := "Done" ]} |};
          "Done" := {| Action_of := Some (λ n, (10 + n, NoOp));
                       Events_of := None |} ]} |}.

(** A machine whose only action keeps asking for the event that leads back
    to its own state. *)
Definition spinning : StateMachine nat :=
  {| Previous := "";
     Current := "";
     States_of :=
       {[ Default := {| Action_of := None;
                        Events_of := Some {[ "Spin" := "Loop" ]} |};
          "Loop" := {| Action_of := Some (λ n, (S n, "Spin"));
                       Events_of := Some {[ "Spin" := "Loop" ]} |} ]} |}.

(** On [spinning], the invariant that keeps the loop going: the state
    collection is that of [spinning], the machine rests in [Default] or in
    ["Loop"], and the event held is ["Spin"]. *)
Definition keeps_spinning (s : StateMachine nat) (event : EventType) : Prop :=
  States_of s = States_of spinning ∧
  (Current s = Default ∨ Current s = "Loop") ∧
  event = "Spin".

(** A machine whose only action asks for nothing more, and whose states
    route ["Go"] back to [Default], which has no action (as in the light
    switch machine). *)
Definition hub : StateMachine nat :=
  {| Previous := "";
     Current := "";
     States_of :=
       {[ Default := {| Action_of := None;
                        Events_of := Some {[ "Go" := Default;
                                             "Start" := "Run" ]} |};
          "Run" := {| Action_of := Some (λ n, (S n, NoOp));
                      Events_of := Some {[ "Go" := Default ]} |} ]} |}.

(** A machine whose [Default] state routes the event [NoOp] itself. *)
Definition noOpRouted : StateMachine nat :=
  {| Previous := "";
     Current := "";
     States_of :=
       {[ Default := {| Action_of := None;
                        Events_of := Some {[ NoOp := "Woken" ]} |};
          "Woken" := {| Action_of := Some (λ n, (S n, NoOp));
                        Events_of := None |} ]} |}.

(** ** Configurations and routes *)

(** The state [name] is declared in the collection with an action bound. *)
Definition bound {W} (states : gmap string (State W)) (name : StateType) : Prop :=
  ∃ state action, states !! name = Some state ∧ Action_of state = Some action.

(** Some transition table entry of the state [source] leads to [target]. *)
Definition routes {W} (states : gmap string (State W))
    (source target : StateType) : Prop :=
  ∃ state events event,
    states !! source = Some state ∧
    Events_of state = Some events ∧
    events !! event = Some target.


(** The machine [s] with another value in [Previous]. *)
Definition withPrevious {W} (previous : StateType) (s : StateMachine W)
  : StateMachine W :=
  {| Previous := previous; Current := Current s; States_of := States_of s |}.

(** ** The light switch as the article describes it

    The switch-on event takes the machine from off to on, the switch-off
    event takes it from on back to off, and an event triggered in a state
    that does not react to it means nothing.  The machine of the code is
    put in the off state by a first switch-off event sent in [Default]. *)
Definition lightSwitch (current : StateType) (event : EventType)
  : option StateType :=
  if decide (event = SwitchOn ∧ current = Off) then Some On
  else if decide (event = SwitchOff ∧ (current = On ∨ current = Default))
       then Some Off
  else None.

(** The line the action of a state of the light switch prints. *)
Definition lightSwitchLine (state : StateType) : string :=
  if decide (state = On) then "The light has been switched on"
  else "The light has been switched off".

(** The outcomes, the final state and the lines printed when [events] are
    sent one after the other to the light switch of the article. *)
Fixpoint lightSwitchRun (current : StateType) (events : list EventType)
  : list Outcome * StateType * list string :=
  match events with
  | [] => ([], current, [])
  | event :: rest =>
      match lightSwitch current event with
      | Some next =>
          let '(outs, final, lines) := lightSwitchRun next rest in
          (Returned None :: outs, final, lightSwitchLine next :: lines)
      | None =>
          let '(outs, final, lines) := lightSwitchRun current rest in
          (Returned (Some ErrEventRejected) :: outs, final, lines)
      end
  end.

(** ** The key-value chat service

    The functions [get], [put], [list] and the loop [readInput] of the
    file [experiments/chat/kv.go], which holds them inside a block comment.
    The global map [keys] and the lines handed to the logger make the state
    of the server.  A [[]byte] made from a string is that string. *)
Module Chat.

(** The calls of [log.Printf], by their format and arguments. *)
Inductive Logged : Type :=
| LogGetting (key : string)
| LogSetting (key value : string)
| LogKeys (keys : gmap string string)
| LogUnableToRead
| LogArgs (args : Datatypes.list string).

Record Server : Type := mkServer {
  keys : gmap string string;
  logged : Datatypes.list Logged
}.

(** [var keys = make(map[string]string)] *)
Definition start : Server := {| keys := ∅; logged := [] |}.

Definition Printf (entry : Logged) (sv : Server) : Server :=
  {| keys := keys sv; logged := (logged sv ++ [entry])%list |}.

Definition newline : string := String "010"%char "".

Definition HELP_MSG : string :=
  "available commands:" ++ newline ++
  "  - get [key]" ++ newline ++
  "  - put [key] [value]" ++ newline ++
  "  - list" ++ newline.

(** [get]: the value of the key and a newline, or ["nil\n"] when the map
    has no such key. *)
Definition get (key : string) (sv : Server) : Server * string :=
  let sv := Printf (LogGetting key) sv in
  match keys sv !! key with
  | None => (sv, "nil" ++ newline)
  | Some k => (sv, k ++ newline)
  end.

(** [put]: [keys[key] = value], and the message of success. *)
Definition put (key value : string) (sv : Server) : Server * string :=
  let sv := Printf (LogSetting key value) sv in
  ({| keys := <[key := value]> (keys sv); logged := logged sv |},
   "successfully put " ++ key ++ " with value of " ++ value ++ "!" ++ newline).

(** The line [list] adds for an entry of the map. *)
Definition line (entry : string * string) : string :=
  "key: " ++ entry.1 ++ ", value: " ++ entry.2 ++ newline.

(** The orders in which a [range] over the map can give its entries: Go
    leaves the order open, each entry comes once. *)
Definition ranges (sv : Server) (order : Datatypes.list (string * string)) : Prop :=
  order ≡ₚ map_to_list (keys sv).

(** [list]: the lines of the entries, in the order [order] in which the
    [range] over the map gives them. *)
Definition list (order : Datatypes.list (string * string)) (sv : Server)
  : Server * string :=
  let sv := Printf (LogKeys (keys sv)) sv in
  (sv, foldl (λ msg entry, msg ++ line entry) "" order).

Section ReadInput.

(** [strings.TrimSpace] and [strings.Split], of Go's library. *)
Variable TrimSpace : string → string.
Variable Split : string → string → Datatypes.list string.

(** One turn of the loop of [readInput], from the line [input] that
    [ReadString] gave, with [err] telling whether it gave an error (the turn
    goes on all the same).  [conn] holds what was written to the connection
    so far.  The boolean tells whether the turn panicked on an index out of
    range. *)
Definition readInput_turn (order : Datatypes.list (string * string))
    (input : string) (err : bool) (sv : Server) (conn : Datatypes.list string)
  : Server * Datatypes.list string * bool :=
  let sv := if err then Printf LogUnableToRead sv else sv in
  let args := Split (TrimSpace input) " " in
  let sv := Printf (LogArgs args) sv in
  match args !! 0%nat with
  | None => (sv, conn, true)
  | Some command =>
      if decide (command = "get") then
        let conn :=
          if decide (length args < 2)%nat
          then (conn ++ [("what key do you want to get?" ++ newline)%string])%list
          else conn in
        match args !! 1%nat with
        | None => (sv, conn, true)
        | Some arg1 =>
            let '(sv, reply) := get (TrimSpace arg1) sv in
            (sv, (conn ++ [reply])%list, false)
        end
      else if decide (command = "put") then
        if decide (length args < 3)%nat
        then (sv,
              (conn ++ [("error: please supply two args: a key and a value"
                         ++ newline)%string])%list,
              false)
        else
          match args !! 1%nat, args !! 2%nat with
          | Some arg1, Some arg2 =>
              let '(sv, reply) := put (TrimSpace arg1) (TrimSpace arg2) sv in
              (sv, (conn ++ [reply])%list, false)
          | _, _ => (sv, conn, true)
          end
      else if decide (command = "list") then
        let '(sv, reply) := list order sv in
        (sv, (conn ++ [reply])%list, false)
      else (sv, (conn ++ [HELP_MSG])%list, false)
  end.

End ReadInput.

(** [strings.Split] with the separator [" "], for the examples. *)
Fixpoint splitSpaces (s : string) : Datatypes.list string :=
  match s with
  | "" => [""]
  | String c s' =>
      if decide (c = " "%char) then "" :: splitSpaces s'
      else match splitSpaces s' with
           | head :: tail => String c head :: tail
           | [] => [String c ""]
           end
  end.

(** A stand-in for [strings.TrimSpace] in the examples, which are lines of
    ASCII characters: the six ASCII white space characters at both ends are
    dropped.  It is not Go's function, which also drops the white space of
    Unicode (such as U+0085 and U+00A0); no theorem is stated about it. *)
Fixpoint trimLeft (s : string) : string :=
  match s with
  | "" => ""
  | String c s' => if Ascii.is_space c then trimLeft s' else s
  end.

Fixpoint trimRight (s : string) : string :=
  match s with
  | "" => ""
  | String c s' =>
      let rest := trimRight s' in
      if decide (rest = "") then (if Ascii.is_space c then "" else String c "")
      else String c rest
  end.

Definition trimSpace (s : string) : string := trimRight (trimLeft s).

End Chat.

(** ** Actions that hold the machine

    The fields of [StateMachine] are exported and [Execute] is host code: an
    action object can hold the pointer to the machine it is bound in, read
    and write [Previous], [Current] and [States] while it runs, and panic
    instead of returning.  Here the states hold action objects [A] of the
    host, and [Execute] says what the call of each does to the machine and
    the world.  [SendEvent] has no [recover]: a panic in an action ends the
    call with the machine and the world as the action left them.  (An
    action that called [SendEvent] on its own machine would wait for the
    mutex for ever; [Execute] is a function and cannot.) *)
Module Host.

(** What the call of [Execute] on an action object does. *)
Inductive Executed (M W : Type) : Type :=
| Returns (s : M) (w : W) (event : EventType)
| Panics (s : M) (w : W).
Arguments Returns {M W} _ _ _.
Arguments Panics {M W} _ _.

Inductive Outcome : Set :=
| Returned (err : option error)
| PanickedOnNilAction
| PanickedInAction.

Inductive Obs : Set :=
| ObsTransition (previous current : StateType)
| ObsExecute (state : StateType) (returned : EventType)
| ObsExecutePanic (state : StateType).

Section Host.

Variable W : Type.
Variable A : Type.

Record State : Type := mkState {
  Action_of : option A;
  Events_of : option (gmap string string)
}.

Definition zeroState : State := mkState None None.

Record StateMachine : Type := mkStateMachine {
  Previous : StateType;
  Current : StateType;
  States_of : gmap string State
}.

Variable Execute : A → StateMachine → W → Executed StateMachine W.

Definition getNextState (s : StateMachine) (event : EventType)
  : StateType * option error :=
  match States_of s !! Current s with
  | Some state =>
      match Events_of state with
      | Some events =>
          match events !! event with
          | Some next => (next, None)
          | None => (Default, Some ErrEventRejected)
          end
      | None => (Default, Some ErrEventRejected)
      end
  | None => (Default, Some ErrEventRejected)
  end.

Definition transition (s : StateMachine) (nextState : StateType) : StateMachine :=
  {| Previous := Current s; Current := nextState; States_of := States_of s |}.

Record Result : Type := mkResult {
  machine : StateMachine;
  world : W;
  trace : list Obs;
  outcome : Outcome
}.

Definition observed (obs : list Obs) (r : Result) : Result :=
  {| machine := machine r; world := world r;
     trace := obs ++ trace r; outcome := outcome r |}.

(** [SendEvent], with [fuel] turns of the loop allowed.  The state
    definition is looked up, and copied, before the assignments; the action
    found in the copy is the one called. *)
Fixpoint SendEvent (fuel : nat) (s : StateMachine) (event : EventType) (w : W)
  : option Result :=
  match fuel with
  | O => None
  | S fuel' =>
      let '(nextState, err) := getNextState s event in
      match err with
      | Some _ => Some (mkResult s w [] (Returned (Some ErrEventRejected)))
      | None =>
          let state := default zeroState (States_of s !! nextState) in
          let s' := transition s nextState in
          let moved := ObsTransition (Previous s') (Current s') in
          match Action_of state with
          | None => Some (mkResult s' w [moved] PanickedOnNilAction)
          | Some action =>
              match Execute action s' w with
              | Panics s'' w' =>
                  Some (mkResult s'' w' [moved; ObsExecutePanic nextState]
                          PanickedInAction)
              | Returns s'' w' nextEvent =>
                  let obs := [moved; ObsExecute nextState nextEvent] in
                  if decide (nextEvent = NoOp)
                  then Some (mkResult s'' w' obs (Returned None))
                  else observed obs <$> SendEvent fuel' s'' nextEvent w'
              end
          end
      end
  end.

(** The state [name] is declared with an action bound. *)
Definition bound (states : gmap string State) (name : StateType) : Prop :=
  ∃ state action, states !! name = Some state ∧ Action_of state = Some action.

(** Some transition table entry of the state [source] leads to [target]. *)
Definition routes (states : gmap string State) (source target : StateType)
  : Prop :=
  ∃ state events event,
    states !! source = Some state ∧
    Events_of state = Some events ∧
    events !! event = Some target.

(** The machine an action call leaves, whether it returns or panics. *)
Definition left {M} (e : Executed M W) : M :=
  match e with Returns s _ _ => s | Panics s _ => s end.

(** No action changes the state collection of the machine it runs on. *)
Definition actions_keep_States : Prop :=
  ∀ action s w, States_of (left (Execute action s w)) = States_of s.

End Host.

Arguments mkState {A} _ _.
Arguments Action_of {A} _.
Arguments Events_of {A} _.
Arguments zeroState {A}.
Arguments mkStateMachine {A} _ _ _.
Arguments Previous {A} _.
Arguments Current {A} _.
Arguments States_of {A} _.
Arguments getNextState {A} _ _.
Arguments transition {A} _ _.
Arguments mkResult {W A} _ _ _ _.
Arguments machine {W A} _.
Arguments world {W A} _.
Arguments trace {W A} _.
Arguments outcome {W A} _.
Arguments SendEvent {W A} _ _ _ _ _.
Arguments bound {A} _ _.
Arguments routes {A} _ _ _.
Arguments left {W M} _.
Arguments actions_keep_States {W A} _.

End Host.

(** A host with one action object which, when run, declares a further
    state in the collection of the machine it runs on and asks for nothing
    more. *)
Inductive GrowAction : Set := Grow.

Definition growExecute (action : GrowAction)
    (s : Host.StateMachine GrowAction) (w : nat)
  : Host.Executed (Host.StateMachine GrowAction) nat :=
  Host.Returns
    {| Host.Previous := Host.Previous s;
       Host.Current := Host.Current s;
       Host.States_of :=
         <["Extra" := Host.mkState None None]> (Host.States_of s) |}
    (S w) NoOp.

(** A machine of that host: ["Start"] leads from [Default] to ["Run"],
    whose action is [Grow]. *)
Definition growing : Host.StateMachine GrowAction :=
  {| Host.Previous := "";
     Host.Current := "";
     Host.States_of :=
       {[ Default := Host.mkState None (Some {[ "Start" := "Run" ]});
          "Run" := Host.mkState (Some Grow) None ]} |}.

(** A host with one action object that panics when run, and a machine of
    it on which ["Break"] leads to the state of that action and ["Lose"]
    to a state that is not declared. *)
Inductive FaultyAction : Set := Faulty.

Definition faultyExecute (action : FaultyAction)
    (s : Host.StateMachine FaultyAction) (w : nat)
  : Host.Executed (Host.StateMachine FaultyAction) nat :=
  Host.Panics s (S w).

Definition faulty : Host.StateMachine FaultyAction :=
  {| Host.Previous := "";
     Host.Current := "";
     Host.States_of :=
       {[ Default := Host.mkState None
                       (Some {[ "Break" := "Broken"; "Lose" := "Lost" ]});
          "Broken" := Host.mkState (Some Faulty) None ]} |}.

(** *** The actions of the framework above as host actions

    An action that acts on the world alone and returns is a host action
    that leaves the machine as it found it. *)
Definition pureExecute {W} (action : Action W)
    (s : Host.StateMachine (Action W)) (w : W)
  : Host.Executed (Host.StateMachine (Action W)) W :=
  Host.Returns s (action w).1 (action w).2.

Definition hostState {W} (state : State W) : Host.State (Action W) :=
  Host.mkState (Action_of state) (Events_of state).

Definition hostMachine {W} (s : StateMachine W)
  : Host.StateMachine (Action W) :=
  {| Host.Previous := Previous s;
     Host.Current := Current s;
     Host.States_of := hostState <$> States_of s |}.

Definition hostObs (o : Obs) : Host.Obs :=
  match o with
  | ObsTransition p c => Host.ObsTransition p c
  | ObsExecute state e => Host.ObsExecute state e
  end.

Definition hostOutcome (o : Outcome) : Host.Outcome :=
  match o with
  | Returned err => Host.Returned err
  | Panicked => Host.PanickedOnNilAction
  end.

Definition hostResult {W} (r : Result W) : Host.Result W (Action W) :=
  {| Host.machine := hostMachine (machine r);
     Host.world := world r;
     Host.trace := hostObs <$> trace r;
     Host.outcome := hostOutcome (outcome r) |}.

(** The assignments and the action calls in a trace of the host model,
    counted. *)
Fixpoint hostMoves (tr : list Host.Obs) : nat :=
  match tr with
  | [] => 0
  | Host.ObsTransition _ _ :: tr' => S (hostMoves tr')
  | _ :: tr' => hostMoves tr'
  end.

Fixpoint hostCalls (tr : list Host.Obs) : nat :=
  match tr with
  | [] => 0
  | Host.ObsTransition _ _ :: tr' => hostCalls tr'
  | _ :: tr' => S (hostCalls tr')
  end.

(** * Properties *)

Section Properties.

Context {W : Type}.
Implicit Types (s : StateMachine W) (w : W) (event next : EventType).
Implicit Types (r : Result W) (tr : list Obs) (fuel : nat).

(** ** Resolution *)

Lemma getNextState_cases s event :
  (∃ next, getNextState s event = (next, None)) ∨
  getNextState s event = (Default, Some ErrEventRejected).
Proof.
  unfold getNextState.
  destruct (States_of s !! Current s) as [state|]; [|by right].
  destruct (Events_of state) as [events|]; [|by right].
  destruct (events !! event) as [next|]; [left; by exists next|by right].
Qed.

Lemma getNextState_entry s event next :
  getNextState s event = (next, None) ↔
  ∃ state events, States_of s !! Current s = Some state ∧
                  Events_of state = Some events ∧
                  events !! event = Some next.
Proof.
  unfold getNextState. split.
  - destruct (States_of s !! Current s) as [state|]; [|done].
    destruct (Events_of state) as [events|] eqn:He; [|done].
    destruct (events !! event) as [n|] eqn:Hn; [|done].
    intros [= ->]. exists state, events. auto.
  - intros (state & events & -> & -> & ->). done.
Qed.

Lemma getNextState_no_entry s event :
  getNextState s event = (Default, Some ErrEventRejected) ↔
  States_of s !! Current s = None ∨
  ∃ state, States_of s !! Current s = Some state ∧
           (Events_of state = None ∨
            ∃ events, Events_of state = Some events ∧ events !! event = None).
Proof.
  unfold getNextState. split.
  - destruct (States_of s !! Current s) as [state|]; [|by left].
    intros H. right. exists state. split; [done|].
    destruct (Events_of state) as [events|] eqn:He; [|by left].
    right. exists events. split; [done|].
    by destruct (events !! event).
  - intros [->|(state & -> & [->|(events & -> & ->)])]; done.
Qed.

(** ** One turn of the loop *)

Lemma iteration_reject s w event :
  getNextState s event = (Default, Some ErrEventRejected) →
  iteration s w event = (s, w, [], Exit (Returned (Some ErrEventRejected))).
Proof. unfold iteration. by intros ->. Qed.

Lemma iteration_panic s w event next :
  getNextState s event = (next, None) →
  Action_of (default zeroState (States_of s !! next)) = None →
  iteration s w event =
    (transition s next, w, [ObsTransition (Current s) next], Exit Panicked).
Proof. unfold iteration. by intros -> ->. Qed.

Lemma iteration_execute s w event next action :
  getNextState s event = (next, None) →
  Action_of (default zeroState (States_of s !! next)) = Some action →
  iteration s w event =
    (transition s next, (action w).1,
     [ObsTransition (Current s) next; ObsExecute next (action w).2],
     if decide ((action w).2 = NoOp) then Exit (Returned None)
     else Again (action w).2).
Proof. unfold iteration. intros -> ->. by destruct (action w). Qed.

(** A bound action is what the lookup of a declared state gives. *)
Lemma bound_action s next state action :
  States_of s !! next = Some state →
  Action_of state = Some action →
  Action_of (default zeroState (States_of s !! next)) = Some action.
Proof. by intros -> ?. Qed.

Lemma unbound_action s next :
  (States_of s !! next = None ∨
   ∃ state, States_of s !! next = Some state ∧ Action_of state = None) →
  Action_of (default zeroState (States_of s !! next)) = None.
Proof. by intros [->|(state & -> & ?)]. Qed.

(** ** The loop *)

Lemma SendEvent_unfold fuel s event w :
  SendEvent (S fuel) s event w =
    let '(s', w', obs, flow) := iteration s w event in
    match flow with
    | Exit o => Some (mkResult s' w' obs o)
    | Again nextEvent => observed obs <$> SendEvent fuel s' nextEvent w'
    end.
Proof. reflexivity. Qed.

(** More fuel does not change the result of a call that ended. *)
Lemma SendEvent_fuel_mono fuel fuel' s event w r :
  SendEvent fuel s event w = Some r →
  (fuel ≤ fuel')%nat →
  SendEvent fuel' s event w = Some r.
Proof.
  revert fuel' s event w r.
  induction fuel as [|fuel IH]; intros fuel' s event w r; [done|].
  intros Hr Hle. destruct fuel' as [|fuel']; [lia|].
  rewrite SendEvent_unfold in Hr |- *.
  destruct (iteration s w event) as [[[s' w'] obs] [nextEvent|o]]; [|done].
  destruct (SendEvent fuel s' nextEvent w') as [r'|] eqn:Hr'; [|done].
  rewrite (IH fuel' _ _ _ _ Hr'); [done|lia].
Qed.

(** A call that is out of fuel was out of fuel with less. *)
Lemma SendEvent_fuel_None fuel fuel' s event w :
  SendEvent fuel' s event w = None →
  (fuel ≤ fuel')%nat →
  SendEvent fuel s event w = None.
Proof.
  intros Hn Hle. destruct (SendEvent fuel s event w) as [r|] eqn:Hr; [|done].
  rewrite (SendEvent_fuel_mono _ _ _ _ _ _ Hr Hle) in Hn. done.
Qed.

(** Rejection at the first resolution. *)
Lemma SendEvent_reject fuel s event w :
  getNextState s event = (Default, Some ErrEventRejected) →
  SendEvent (S fuel) s event w =
    Some (mkResult s w [] (Returned (Some ErrEventRejected))).
Proof. intros H. by rewrite SendEvent_unfold, (iteration_reject _ _ _ H). Qed.

(** A destination without an action: the fields are assigned and the call
    of the action panics. *)
Lemma SendEvent_panic fuel s event w next :
  getNextState s event = (next, None) →
  Action_of (default zeroState (States_of s !! next)) = None →
  SendEvent (S fuel) s event w =
    Some (mkResult (transition s next) w
            [ObsTransition (Current s) next] Panicked).
Proof.
  intros Hn Ha. by rewrite SendEvent_unfold, (iteration_panic _ _ _ _ Hn Ha).
Qed.

(** The same, in the terms of the state collection: the destination is
    not declared, or is declared without an action. *)
Lemma SendEvent_unbound_destination fuel s event w next :
  getNextState s event = (next, None) →
  (States_of s !! next = None ∨
   ∃ state, States_of s !! next = Some state ∧ Action_of state = None) →
  SendEvent (S fuel) s event w =
    Some (mkResult (transition s next) w
            [ObsTransition (Current s) next] Panicked).
Proof.
  intros Hn Hs. apply (SendEvent_panic _ _ _ _ _ Hn), unbound_action, Hs.
Qed.

(** A destination whose action runs. *)
Lemma SendEvent_execute fuel s event w next action :
  getNextState s event = (next, None) →
  Action_of (default zeroState (States_of s !! next)) = Some action →
  SendEvent (S fuel) s event w =
    let obs := [ObsTransition (Current s) next;
                ObsExecute next (action w).2] in
    if decide ((action w).2 = NoOp)
    then Some (mkResult (transition s next) (action w).1 obs (Returned None))
    else observed obs <$>
           SendEvent fuel (transition s next) (action w).2 (action w).1.
Proof.
  intros Hn Ha.
  rewrite SendEvent_unfold, (iteration_execute _ _ _ _ _ Hn Ha).
  by destruct (decide ((action w).2 = NoOp)).
Qed.

(** ** The loop and the finished calls *)

Lemma SendEvent_finishes fuel s event w r :
  SendEvent fuel s event w = Some r → finishes s event w r.
Proof.
  revert s event w r.
  induction fuel as [|fuel IH]; intros s event w r Hr; [done|].
  destruct (getNextState_cases s event) as [[next Hn]|Hn].
  - destruct (Action_of (default zeroState (States_of s !! next)))
      as [action|] eqn:Ha.
    + rewrite (SendEvent_execute _ _ _ _ _ _ Hn Ha) in Hr. cbv zeta in Hr.
      destruct (decide ((action w).2 = NoOp)) as [He|He].
      * injection Hr as <-. rewrite He. by eapply finishes_done.
      * destruct (SendEvent fuel _ _ _) as [r'|] eqn:Hr'; [|done].
        injection Hr as <-. eapply finishes_cascade; eauto.
    + rewrite (SendEvent_panic _ _ _ _ _ Hn Ha) in Hr.
      injection Hr as <-. by apply finishes_panicked.
  - rewrite (SendEvent_reject _ _ _ _ Hn) in Hr.
    injection Hr as <-. by apply finishes_rejected.
Qed.

Lemma finishes_SendEvent s event w r :
  finishes s event w r → ∃ fuel, SendEvent fuel s event w = Some r.
Proof.
  induction 1 as [s event w Hn|s event w next Hn Ha
                 |s event w next action Hn Ha He
                 |s event w next action r Hn Ha He _ [fuel IH]].
  - exists 1. by apply SendEvent_reject.
  - exists 1. by apply SendEvent_panic.
  - exists 1. rewrite (SendEvent_execute _ _ _ _ _ _ Hn Ha). cbv zeta.
    rewrite decide_True by done. by rewrite He.
  - exists (S fuel). rewrite (SendEvent_execute _ _ _ _ _ _ Hn Ha). cbv zeta.
    rewrite decide_False by done. by rewrite IH.
Qed.

(** A call has at most one result. *)
Lemma finishes_deterministic s event w r r' :
  finishes s event w r → finishes s event w r' → r = r'.
Proof.
  intros [fuel Hr]%finishes_SendEvent [fuel' Hr']%finishes_SendEvent.
  pose proof (SendEvent_fuel_mono _ (fuel `max` fuel') _ _ _ _ Hr) as H.
  pose proof (SendEvent_fuel_mono _ (fuel `max` fuel') _ _ _ _ Hr') as H'.
  rewrite H in H' by lia. injection H' as ->; [done|lia].
Qed.

(** ** What a finished call leaves behind *)

(** The state collection is not touched. *)
Lemma finishes_States s event w r :
  finishes s event w r → States_of (machine r) = States_of s.
Proof. induction 1; simpl in *; congruence. Qed.

(** The trace of a call replays from the fields before the call to the
    fields after it. *)
Lemma finishes_replay s event w r :
  finishes s event w r →
  replay (Previous s) (Current s) (trace r) =
    Some (Previous (machine r), Current (machine r)).
Proof.
  induction 1 as [| | |s event w next action r Hn Ha He _ IH]; simpl;
    rewrite ?decide_True by done; done.
Qed.


Lemma pending_execute event previous current state returned tr :
  pending event
    (ObsTransition previous current :: ObsExecute state returned :: tr) =
  pending returned tr.
Proof.
  unfold pending. simpl. rewrite last_cons.
  by destruct (last (executions tr)).
Qed.

(** A call that returns an error returns [ErrEventRejected], and does so
    because the event it then held has no transition from the state the
    machine is left in. *)
Lemma finishes_returns_error s event w r err :
  finishes s event w r →
  outcome r = Returned (Some err) →
  err = ErrEventRejected ∧
  getNextState (machine r) (pending event (trace r)) =
    (Default, Some ErrEventRejected).
Proof.
  induction 1 as [s event w Hn| | |s event w next action r Hn Ha He _ IH];
    simpl; intros Ho; try done.
  - by injection Ho as <-.
  - rewrite pending_execute. by apply IH.
Qed.

(** A call that returns [nil] does so right after the action of the state
    it is left in returned [NoOp]. *)
Lemma finishes_returns_nil s event w r :
  finishes s event w r →
  outcome r = Returned None →
  last (trace r) = Some (ObsExecute (Current (machine r)) NoOp).
Proof.
  induction 1 as [| | |s event w next action r Hn Ha He _ IH];
    simpl; intros Ho; try done.
  by rewrite !last_cons, (IH Ho).
Qed.

(** An invariant of the machine and the event held, under which every
    turn finds a destination with an action that asks for another event
    and keeps the invariant, makes the loop go on whatever the fuel. *)
Lemma SendEvent_diverges (P : StateMachine W → EventType → Prop) :
  (∀ s event, P s event →
     ∃ next state action,
       getNextState s event = (next, None) ∧
       States_of s !! next = Some state ∧
       Action_of state = Some action ∧
       ∀ w, (action w).2 ≠ NoOp ∧ P (transition s next) (action w).2) →
  ∀ fuel s event w, P s event → SendEvent fuel s event w = None.
Proof.
  intros Hstep fuel.
  induction fuel as [|fuel IH]; intros s event w HP; [done|].
  destruct (Hstep _ _ HP) as (next & state & action & Hn & Hs & Ha & Hw).
  rewrite (SendEvent_execute fuel _ _ _ _ _ Hn (bound_action _ _ _ _ Hs Ha)).
  destruct (Hw w) as [Hne HP']. simpl. rewrite decide_False by done.
  by rewrite (IH _ _ _ HP').
Qed.

End Properties.

(** ** Rejection, the frame, and the unhandled configuration error *)

(** C3. If the machine's current state is absent from the state collection,
    or is present but its transition table is nil or has no entry for the
    event, then [SendEvent] returns [ErrEventRejected]; no action is invoked
    (the trace is empty and the world is the one handed in) and the machine
    is as it was. *)
Theorem C3_unresolved_event_is_rejected {W} fuel (s : StateMachine W)
    (event : EventType) (w : W) :
  (States_of s !! Current s = None ∨
   ∃ state, States_of s !! Current s = Some state ∧
            (Events_of state = None ∨
             ∃ events, Events_of state = Some events ∧
                       events !! event = None)) →
  SendEvent (S fuel) s event w =
    Some {| machine := s; world := w; trace := [];
            outcome := Returned (Some ErrEventRejected) |}.
Proof.
  intros H. apply SendEvent_reject. by apply getNextState_no_entry.
Qed.

Lemma C3_witness :
  SendEvent 1 hub "Halt" 7 =
    Some {| machine := hub; world := 7; trace := [];
            outcome := Returned (Some ErrEventRejected) |}.
Proof.
  apply (C3_unresolved_event_is_rejected 0 hub "Halt" 7).
  right. eexists. split; [reflexivity|].
  right. eexists. split; reflexivity.
Defined.

(** C1. On a transition whose destination is absent from the state
    collection ([undeclaredOff]) or declared without an action
    ([actionlessOff]), [SendEvent] returns no error at all: it assigns
    [Previous] and [Current], so the machine is at the destination, and
    then panics on the call of the missing action. *)
Theorem C1_unbound_destination_transitions_then_panics :
  (∀ fuel out,
     SendEvent (S fuel) undeclaredOff SwitchOff out =
       Some {| machine := {| Previous := Default; Current := Off;
                             States_of := States_of undeclaredOff |};
               world := out;
               trace := [ObsTransition Default Off];
               outcome := Panicked |}) ∧
  (∀ fuel out,
     SendEvent (S fuel) actionlessOff SwitchOff out =
       Some {| machine := {| Previous := Default; Current := Off;
                             States_of := States_of actionlessOff |};
               world := out;
               trace := [ObsTransition Default Off];
               outcome := Panicked |}).
Proof.
  split; intros fuel out.
  - rewrite (SendEvent_unbound_destination fuel undeclaredOff SwitchOff out Off);
      [done|done|by left].
  - rewrite (SendEvent_unbound_destination fuel actionlessOff SwitchOff out Off);
      [done|done|].
    right. by eexists.
Qed.

(** ** The light switch *)

(** C7. On the light switch machine, starting from [Default], the calls
    with [SwitchOff], [SwitchOn], [SwitchOff] all return [nil]; after the
    last one [Current] is [Off] and [Previous] is [On]. *)
Theorem C7_light_switch_alternation :
  Current newLightSwitchFSM = Default ∧
  ∀ fuel,
    SendEvents (S fuel) newLightSwitchFSM [] [SwitchOff; SwitchOn; SwitchOff] =
      Some ([Returned None; Returned None; Returned None],
            {| Previous := On; Current := Off;
               States_of := States_of newLightSwitchFSM |},
            ["The light has been switched off";
             "The light has been switched on";
             "The light has been switched off"]).
Proof. split; [reflexivity|]. intros fuel. reflexivity. Qed.

(** The test of the article: the repeated events are rejected and leave the
    machine where it is. *)
Example TestLightSwitchStateMachine :
  SendEvents 1 newLightSwitchFSM []
    [SwitchOff; SwitchOff; SwitchOn; SwitchOn; SwitchOff] =
    Some ([Returned None; Returned (Some ErrEventRejected); Returned None;
           Returned (Some ErrEventRejected); Returned None],
          {| Previous := On; Current := Off;
             States_of := States_of newLightSwitchFSM |},
          ["The light has been switched off";
           "The light has been switched on";
           "The light has been switched off"]).
Proof. vm_compute. reflexivity. Qed.

(** ** Cascades *)



(** C5. A turn of the loop that finds a destination assigns [Previous] and
    [Current] together, [Previous] taking the value [Current] had and
    [Current] the destination, and this is the first thing the turn does
    that can be observed: the call of the destination's action, if there is
    one, comes after.  Over a whole call, every assignment in the trace
    sets [Previous] to what [Current] was just before it, every action runs
    in the state [Current] already names, and the fields after the call are
    those of the last assignment. *)
Theorem C5_Previous_is_Current_before_transition {W} (s : StateMachine W)
    (event : EventType) (w : W) :
  (∀ next, getNextState s event = (next, None) →
     ∃ s' w' rest flow,
       iteration s w event =
         (s', w', ObsTransition (Previous s') (Current s') :: rest, flow) ∧
       Previous s' = Current s ∧ Current s' = next ∧
       transitions rest = []) ∧
  (∀ fuel r, SendEvent fuel s event w = Some r →
     replay (Previous s) (Current s) (trace r) =
       Some (Previous (machine r), Current (machine r))).
Proof.
  split.
  - intros next Hn.
    destruct (Action_of (default zeroState (States_of s !! next)))
      as [action|] eqn:Ha.
    + rewrite (iteration_execute _ _ _ _ _ Hn Ha).
      by exists (transition s next), (action w).1,
                [ObsExecute next (action w).2],
                (if decide ((action w).2 = NoOp) then Exit (Returned None)
                 else Again (action w).2).
    + rewrite (iteration_panic _ _ _ _ Hn Ha).
      by exists (transition s next), w, [], (Exit Panicked).
  - intros fuel r Hr%SendEvent_finishes. by apply (finishes_replay s event w).
Qed.

Lemma C5_witness :
  replay "" ""
    [ObsTransition "" "Busy"; ObsExecute "Busy" "Finish";
     ObsTransition "Busy" "Done"; ObsExecute "Done" NoOp] =
  Some ("Busy", "Done").
Proof.
  apply (proj2 (C5_Previous_is_Current_before_transition
                  twoStepCascade "Start" 0) 2
           {| machine := transition (transition twoStepCascade "Busy") "Done";
              world := 11;
              trace := [ObsTransition "" "Busy"; ObsExecute "Busy" "Finish";
                        ObsTransition "Busy" "Done"; ObsExecute "Done" NoOp];
              outcome := Returned None |}).
  vm_compute. reflexivity.
Defined.




(** ** Termination *)

Lemma hub_all_actions_return_NoOp : all_actions_return_NoOp hub.
Proof.
  intros name state action w Hs Ha. unfold hub in Hs. simpl in Hs.
  apply lookup_insert_Some in Hs as [[_ <-]|[_ Hs]]; [done|].
  apply lookup_singleton_Some in Hs as [_ <-].
  simpl in Ha. by injection Ha as <-.
Qed.

(** Against C6 as stated: on [hub] all the actions return [NoOp] and the
    event ["Go"] has a transition from the current state, yet the call ends
    with no action called at all, and neither because an action returned
    [NoOp] nor because a resolution rejected the event: the destination has
    no action and the call panics after the one transition. *)
Lemma C6_counterexample :
  all_actions_return_NoOp hub ∧
  getNextState hub "Go" = (Default, None) ∧
  ∃ r, (∀ fuel, SendEvent (S fuel) hub "Go" 0 = Some r) ∧
       outcome r = Panicked ∧
       length (transitions (trace r)) = 1 ∧
       length (executions (trace r)) = 0.
Proof.
  split; [apply hub_all_actions_return_NoOp|]. split; [reflexivity|].
  eexists. split; [intros fuel; reflexivity|]. done.
Qed.

(** C6, amended. A call of [SendEvent] returns only when an action it
    called returned [NoOp] (it then returns [nil]) or when a resolution
    rejected the event then held (it then returns [ErrEventRejected]).  For
    a machine on which, from the state and event of the call on, every
    event held leads to a state with a bound action that returns an event
    other than [NoOp] and keeps this true, a call never ends, whatever the
    number of turns allowed.  For a machine all of whose actions return
    [NoOp], every call whose event has a transition to a state with a bound
    action ends after exactly one transition and one action call. *)
Theorem C6_termination_of_SendEvent {W} :
  (∀ fuel (s : StateMachine W) event w r,
     SendEvent fuel s event w = Some r →
     match outcome r with
     | Returned None =>
         last (trace r) = Some (ObsExecute (Current (machine r)) NoOp)
     | Returned (Some err) =>
         err = ErrEventRejected ∧
         getNextState (machine r) (pending event (trace r)) =
           (Default, Some ErrEventRejected)
     | Panicked => True
     end) ∧
  (∀ P : StateMachine W → EventType → Prop,
     (∀ s event, P s event →
        ∃ next state action,
          getNextState s event = (next, None) ∧
          States_of s !! next = Some state ∧
          Action_of state = Some action ∧
          ∀ w, (action w).2 ≠ NoOp ∧ P (transition s next) (action w).2) →
     ∀ s event w, P s event → ∀ fuel, SendEvent fuel s event w = None) ∧
  (∀ (s : StateMachine W) event w next state action,
     all_actions_return_NoOp s →
     getNextState s event = (next, None) →
     States_of s !! next = Some state →
     Action_of state = Some action →
     ∀ fuel,
       SendEvent (S fuel) s event w =
         Some {| machine := transition s next;
                 world := (action w).1;
                 trace := [ObsTransition (Current s) next;
                           ObsExecute next NoOp];
                 outcome := Returned None |}).
Proof.
  split; [|split].
  - intros fuel s event w r Hr%SendEvent_finishes.
    destruct (outcome r) as [[err|]|] eqn:Ho; [| |done].
    + by apply (finishes_returns_error s event w r err).
    + by apply (finishes_returns_nil s event w r).
  - intros P Hstep s event w HP fuel. by apply (SendEvent_diverges P).
  - intros s event w next state action Hall Hn Hs Ha fuel.
    rewrite (SendEvent_execute _ _ _ _ _ _ Hn (bound_action _ _ _ _ Hs Ha)).
    cbv zeta. rewrite (Hall _ _ _ w Hs Ha). by rewrite decide_True.
Qed.

Lemma keeps_spinning_step s event :
  keeps_spinning s event →
  ∃ next state action,
    getNextState s event = (next, None) ∧
    States_of s !! next = Some state ∧
    Action_of state = Some action ∧
    ∀ w, (action w).2 ≠ NoOp ∧
         keeps_spinning (transition s next) (action w).2.
Proof.
  intros (Hs & Hc & ->).
  exists "Loop", {| Action_of := Some (λ n, (S n, "Spin"));
                    Events_of := Some {[ "Spin" := "Loop" ]} |},
         (λ n, (S n, "Spin")).
  split; [|split; [|split]].
  - unfold getNextState. rewrite Hs. by destruct Hc as [-> | ->].
  - by rewrite Hs.
  - done.
  - intros w. split; [done|]. split; [done|]. split; [by right|done].
Qed.

Lemma C6_witness :
  (∀ fuel, SendEvent fuel spinning "Spin" 0 = None) ∧
  (∀ fuel,
     SendEvent (S fuel) hub "Start" 0 =
       Some {| machine := transition hub "Run"; world := 1;
               trace := [ObsTransition "" "Run"; ObsExecute "Run" NoOp];
               outcome := Returned None |}).
Proof.
  split.
  - apply (proj1 (proj2 C6_termination_of_SendEvent) keeps_spinning
             keeps_spinning_step spinning "Spin" 0).
    split; [done|]. split; [by left|done].
  - apply (proj2 (proj2 C6_termination_of_SendEvent) hub "Start" 0 "Run"
             {| Action_of := Some (λ n, (S n, NoOp));
                Events_of := Some {[ "Go" := Default ]} |}
             (λ n, (S n, NoOp)) hub_all_actions_return_NoOp);
      reflexivity.
Defined.

(** ** The event [NoOp] submitted from outside *)

(** C10. [NoOp] is compared against only as the value an action returns;
    submitted to [SendEvent], it is looked up in the transition table of the
    current state like any event.  With an entry for it, the machine makes
    the transition to the destination and, the destination having a bound
    action, runs it: the call returns [nil] if the action returns [NoOp] and
    goes on with the returned event otherwise.  Without an entry the call
    returns [ErrEventRejected] and nothing has happened. *)
Theorem C10_NoOp_is_an_ordinary_submitted_event {W} fuel (s : StateMachine W)
    (w : W) (current : State W) (events : Events) :
  States_of s !! Current s = Some current →
  Events_of current = Some events →
  (∀ next, events !! NoOp = Some next →
     getNextState s NoOp = (next, None) ∧
     (∃ w' rest flow,
        iteration s w NoOp =
          (transition s next, w', ObsTransition (Current s) next :: rest,
           flow)) ∧
     ∀ state action,
       States_of s !! next = Some state →
       Action_of state = Some action →
       SendEvent (S fuel) s NoOp w =
         let obs := [ObsTransition (Current s) next;
                     ObsExecute next (action w).2] in
         if decide ((action w).2 = NoOp)
         then Some {| machine := transition s next; world := (action w).1;
                      trace := obs; outcome := Returned None |}
         else observed obs <$>
                SendEvent fuel (transition s next) (action w).2 (action w).1) ∧
  (events !! NoOp = None →
     SendEvent (S fuel) s NoOp w =
       Some {| machine := s; world := w; trace := [];
               outcome := Returned (Some ErrEventRejected) |}).
Proof.
  intros Hs He. split.
  - intros next Hev.
    assert (getNextState s NoOp = (next, None)) as Hn.
    { apply getNextState_entry. by exists current, events. }
    split; [done|]. split.
    + destruct (Action_of (default zeroState (States_of s !! next)))
        as [action|] eqn:Ha.
      * rewrite (iteration_execute _ _ _ _ _ Hn Ha). by eexists _, _, _.
      * rewrite (iteration_panic _ _ _ _ Hn Ha). by eexists _, _, _.
    + intros state action Hst Ha.
      apply (SendEvent_execute _ _ _ _ _ _ Hn (bound_action _ _ _ _ Hst Ha)).
  - intros Hev. apply SendEvent_reject, getNextState_no_entry.
    right. exists current. split; [done|]. right. by exists events.
Qed.

Lemma C10_witness :
  (∀ next, ({[ NoOp := "Woken" ]} : Events) !! NoOp = Some next →
     getNextState noOpRouted NoOp = (next, None) ∧
     (∃ w' rest flow,
        iteration noOpRouted 0 NoOp =
          (transition noOpRouted next, w',
           ObsTransition (Current noOpRouted) next :: rest, flow)) ∧
     ∀ state action,
       States_of noOpRouted !! next = Some state →
       Action_of state = Some action →
       SendEvent 1 noOpRouted NoOp 0 =
         let obs := [ObsTransition (Current noOpRouted) next;
                     ObsExecute next (action 0).2] in
         if decide ((action 0).2 = NoOp)
         then Some {| machine := transition noOpRouted next;
                      world := (action 0).1;
                      trace := obs; outcome := Returned None |}
         else observed obs <$>
                SendEvent 0 (transition noOpRouted next)
                  (action 0).2 (action 0).1) ∧
  (({[ NoOp := "Woken" ]} : Events) !! NoOp = None →
     SendEvent 1 noOpRouted NoOp 0 =
       Some {| machine := noOpRouted; world := 0; trace := [];
               outcome := Returned (Some ErrEventRejected) |}).
Proof.
  apply (C10_NoOp_is_an_ordinary_submitted_event 0 noOpRouted 0
           {| Action_of := None; Events_of := Some {[ NoOp := "Woken" ]} |}
           {[ NoOp := "Woken" ]});
    reflexivity.
Defined.

(** [NoOp] submitted to [noOpRouted] moves the machine and runs the action
    of the destination; submitted to the light switch it is rejected. *)
Example NoOp_submitted :
  SendEvent 1 noOpRouted NoOp 0 =
    Some {| machine := transition noOpRouted "Woken"; world := 1;
            trace := [ObsTransition "" "Woken"; ObsExecute "Woken" NoOp];
            outcome := Returned None |} ∧
  SendEvent 1 newLightSwitchFSM NoOp [] =
    Some {| machine := newLightSwitchFSM; world := []; trace := [];
            outcome := Returned (Some ErrEventRejected) |}.
Proof. split; vm_compute; reflexivity. Qed.

(** * Further properties of the framework *)

Section Configuration.

Context {W : Type}.
Implicit Types (s : StateMachine W) (w : W) (event next : EventType).
Implicit Types (r : Result W) (fuel : nat).




Lemma finishes_panicked_at s event w r :
  finishes s event w r →
  outcome r = Panicked →
  Action_of (default zeroState (States_of s !! Current (machine r))) = None ∧
  last (trace r) =
    Some (ObsTransition (Previous (machine r)) (Current (machine r))).
Proof.
  induction 1 as [| | |s event w next action r Hn Ha He _ IH];
    simpl; intros Ho; try done.
  destruct (IH Ho) as [Hb Hl]. split; [done|].
  by rewrite !last_cons, Hl.
Qed.





End Configuration.








(** X5. [SendEvent] never reads [Previous]: with another value in the
    field the call does the same (same fuel needed, same outcome, world and
    trace, same [Current]) and leaves the same machine, except that a call
    that makes no transition leaves the other value where it was. *)
Theorem X5_Previous_is_never_read {W} fuel (s : StateMachine W)
    (event : EventType) (w : W) (previous : StateType) :
  SendEvent fuel (withPrevious previous s) event w =
    (λ r, if decide (transitions (trace r) = [])
          then {| machine := withPrevious previous (machine r);
                  world := world r; trace := trace r; outcome := outcome r |}
          else r) <$> SendEvent fuel s event w.
Proof.
  destruct fuel as [|fuel]; [done|].
  destruct (getNextState_cases s event) as [[next Hn]|Hn].
  - assert (getNextState (withPrevious previous s) event = (next, None)) as Hn'
      by done.
    destruct (Action_of (default zeroState (States_of s !! next)))
      as [action|] eqn:Ha.
    + rewrite (SendEvent_execute _ _ _ _ _ _ Hn Ha).
      rewrite (SendEvent_execute _ _ _ _ _ _ Hn' Ha). cbv zeta.
      destruct (decide ((action w).2 = NoOp)); [done|].
      change (transition (withPrevious previous s) next)
        with (transition s next).
      by destruct (SendEvent fuel (transition s next) _ _).
    + rewrite (SendEvent_panic _ _ _ _ _ Hn Ha).
      by rewrite (SendEvent_panic _ _ _ _ _ Hn' Ha).
  - assert (getNextState (withPrevious previous s) event =
              (Default, Some ErrEventRejected)) as Hn' by done.
    rewrite (SendEvent_reject _ _ _ _ Hn).
    by rewrite (SendEvent_reject _ _ _ _ Hn').
Qed.

(** ** The light switch machine against its description *)

Lemma lightSwitch_states s :
  States_of s = States_of newLightSwitchFSM →
  Current s = Default ∨ Current s = Off ∨ Current s = On →
  ∃ state events target event,
    States_of s !! Current s = Some state ∧
    Events_of state = Some events ∧
    events = {[ event := target ]} ∧
    ((Current s = Default ∧ event = SwitchOff ∧ target = Off) ∨
     (Current s = Off ∧ event = SwitchOn ∧ target = On) ∨
     (Current s = On ∧ event = SwitchOff ∧ target = Off)).
Proof.
  intros Hs [Hc|[Hc|Hc]]; rewrite Hs, Hc.
  - exists {| Action_of := None; Events_of := Some {[ SwitchOff := Off ]} |},
           {[ SwitchOff := Off ]}, Off, SwitchOff. auto 10.
  - exists {| Action_of := Some OffAction;
              Events_of := Some {[ SwitchOn := On ]} |},
           {[ SwitchOn := On ]}, On, SwitchOn. auto 10.
  - exists {| Action_of := Some OnAction;
              Events_of := Some {[ SwitchOff := Off ]} |},
           {[ SwitchOff := Off ]}, Off, SwitchOff. auto 10.
Qed.

(** One call on the light switch machine does what the description says. *)
Lemma lightSwitch_call fuel (s : StateMachine (list string)) event out :
  States_of s = States_of newLightSwitchFSM →
  Current s = Default ∨ Current s = Off ∨ Current s = On →
  SendEvent (S fuel) s event out =
    Some match lightSwitch (Current s) event with
         | Some next =>
             {| machine := transition s next;
                world := (out ++ [lightSwitchLine next])%list;
                trace := [ObsTransition (Current s) next;
                          ObsExecute next NoOp];
                outcome := Returned None |}
         | None =>
             {| machine := s; world := out; trace := [];
                outcome := Returned (Some ErrEventRejected) |}
         end.
Proof.
  intros Hs Hc.
  destruct (lightSwitch_states s Hs Hc)
    as (state & events & target & accepted & Hst & He & -> & Hcase).
  destruct (decide (event = accepted)) as [->|Hne].
  - assert (getNextState s accepted = (target, None)) as Hn.
    { apply getNextState_entry. exists state, {[ accepted := target ]}.
      split; [done|]. split; [done|]. apply lookup_singleton_eq. }
    destruct Hcase as [(Hcur & -> & ->)|[(Hcur & -> & ->)|(Hcur & -> & ->)]].
    + assert (lightSwitch (Current s) SwitchOff = Some Off) as ->
        by (by rewrite Hcur).
      rewrite (SendEvent_execute _ _ _ _ _ OffAction Hn);
        [reflexivity|by rewrite Hs].
    + assert (lightSwitch (Current s) SwitchOn = Some On) as ->
        by (by rewrite Hcur).
      rewrite (SendEvent_execute _ _ _ _ _ OnAction Hn);
        [reflexivity|by rewrite Hs].
    + assert (lightSwitch (Current s) SwitchOff = Some Off) as ->
        by (by rewrite Hcur).
      rewrite (SendEvent_execute _ _ _ _ _ OffAction Hn);
        [reflexivity|by rewrite Hs].
  - assert (getNextState s event = (Default, Some ErrEventRejected)) as Hn.
    { apply getNextState_no_entry. right. exists state. split; [done|].
      right. exists {[ accepted := target ]}. split; [done|].
      by apply lookup_singleton_ne. }
    rewrite (SendEvent_reject _ _ _ _ Hn).
    assert (lightSwitch (Current s) event = None) as ->; [|done].
    unfold lightSwitch.
    destruct Hcase as [(Hcur & -> & ->)|[(Hcur & -> & ->)|(Hcur & -> & ->)]];
      rewrite Hcur, !decide_False; try done; intuition (congruence || done).
Qed.

Lemma lightSwitch_stays current event next :
  current = Default ∨ current = Off ∨ current = On →
  lightSwitch current event = Some next →
  next = Off ∨ next = On.
Proof.
  unfold lightSwitch. intros _.
  repeat case_decide; intros [= <-]; intuition (congruence || done).
Qed.

Lemma lightSwitch_calls fuel (s : StateMachine (list string)) events out :
  States_of s = States_of newLightSwitchFSM →
  Current s = Default ∨ Current s = Off ∨ Current s = On →
  ∃ s',
    SendEvents (S fuel) s out events =
      Some ((lightSwitchRun (Current s) events).1.1, s',
            (out ++ (lightSwitchRun (Current s) events).2)%list) ∧
    Current s' = (lightSwitchRun (Current s) events).1.2 ∧
    States_of s' = States_of newLightSwitchFSM ∧
    (Current s' = Default ∨ Current s' = Off ∨ Current s' = On).
Proof.
  revert s out.
  induction events as [|event rest IH]; intros s out Hs Hc.
  - exists s. simpl. by rewrite app_nil_r.
  - cbn [SendEvents]. rewrite (lightSwitch_call fuel s event out Hs Hc).
    cbn [lightSwitchRun mbind option_bind].
    destruct (lightSwitch (Current s) event) as [next|] eqn:Hl.
    + destruct (lightSwitch_stays _ _ _ Hc Hl) as [Hn|Hn].
      * destruct (IH (transition s next) (out ++ [lightSwitchLine next])%list)
          as (s' & Hrun & Hcur & Hst & Hin); [done|by right; left|].
        cbn [machine world outcome]. rewrite Hrun. cbn [Current transition] in *.
        destruct (lightSwitchRun next rest) as [[outs final] lines].
        exists s'. cbn in *. by rewrite <- app_assoc.
      * destruct (IH (transition s next) (out ++ [lightSwitchLine next])%list)
          as (s' & Hrun & Hcur & Hst & Hin); [done|by right; right|].
        cbn [machine world outcome]. rewrite Hrun. cbn [Current transition] in *.
        destruct (lightSwitchRun next rest) as [[outs final] lines].
        exists s'. cbn in *. by rewrite <- app_assoc.
    + destruct (IH s out) as (s' & Hrun & Hcur & Hst & Hin); [done|done|].
      cbn [machine world outcome]. rewrite Hrun.
      destruct (lightSwitchRun (Current s) rest) as [[outs final] lines].
      exists s'. by cbn in *.
Qed.

(** X6. Whatever events are sent to the light switch machine, one after the
    other from [Default], every call ends within one turn of the loop and
    the machine does what the article says of the light switch: the
    outcomes, the lines printed and the state it rests in are those of the
    description, the state collection is as built, and no call panics. *)
Theorem X6_light_switch_follows_its_description fuel
    (events : list EventType) (out : list string) :
  ∃ s',
    SendEvents (S fuel) newLightSwitchFSM out events =
      Some ((lightSwitchRun Default events).1.1, s',
            (out ++ (lightSwitchRun Default events).2)%list) ∧
    Current s' = (lightSwitchRun Default events).1.2 ∧
    States_of s' = States_of newLightSwitchFSM ∧
    (Current s' = Default ∨ Current s' = Off ∨ Current s' = On) ∧
    Panicked ∉ (lightSwitchRun Default events).1.1.
Proof.
  destruct (lightSwitch_calls fuel newLightSwitchFSM events out)
    as (s' & Hrun & Hcur & Hst & Hin); [done|by left|].
  exists s'. repeat split; try done.
  clear. generalize Default.
  induction events as [|event rest IH]; intros current; simpl.
  - apply not_elem_of_nil.
  - destruct (lightSwitch current event) as [next|].
    + specialize (IH next).
      destruct (lightSwitchRun next rest) as [[outs final] lines].
      simpl in *. apply not_elem_of_cons. by split.
    + specialize (IH current).
      destruct (lightSwitchRun current rest) as [[outs final] lines].
      simpl in *. apply not_elem_of_cons. by split.
Qed.

(** * The key-value chat service *)

Lemma string_length_app (a b : string) :
  String.length (a ++ b) = (String.length a + String.length b)%nat.
Proof. induction a as [|c a IH]; cbn; [done|]. by rewrite <- IH. Qed.

Lemma app_newline_inj (a b : string) :
  a ++ Chat.newline = b ++ Chat.newline → a = b.
Proof.
  revert b. induction a as [|c a IH]; intros [|d b]; cbn; intros H.
  - done.
  - injection H as _ H. by destruct b.
  - injection H as _ H. by destruct a.
  - injection H as -> H. by rewrite (IH b H).
Qed.

Lemma Chat_line_length (entry : string * string) :
  String.length (Chat.line entry) =
    (15 + String.length entry.1 + String.length entry.2)%nat.
Proof.
  unfold Chat.line. rewrite !string_length_app. cbn.
  lia.
Qed.

Lemma Chat_lines_length (order : list (string * string)) (msg : string) :
  String.length (foldl (λ msg entry, msg ++ Chat.line entry) msg order) =
    (String.length msg +
     sum_list_with
       (λ entry, 15 + String.length entry.1 + String.length entry.2)%nat
       order)%nat.
Proof.
  revert msg.
  induction order as [|entry order IH]; intros msg; cbn [foldl sum_list_with].
  - lia.
  - rewrite IH, string_length_app, Chat_line_length. lia.
Qed.

(** X7. A [get] of a key after a [put] of that key answers the value put
    and a newline, whatever the map held before. *)
Theorem X7_get_after_put (sv : Chat.Server) (key value : string) :
  (Chat.get key (Chat.put key value sv).1).2 = value ++ Chat.newline.
Proof.
  unfold Chat.get, Chat.put. cbn.
  by rewrite lookup_insert_eq.
Qed.

(** X8. A [put] of a key leaves the answer of [get] for every other key as
    it was. *)
Theorem X8_put_leaves_other_keys (sv : Chat.Server) (key value other : string) :
  other ≠ key →
  (Chat.get other (Chat.put key value sv).1).2 = (Chat.get other sv).2.
Proof.
  intros Hne. unfold Chat.get, Chat.put. cbn.
  rewrite lookup_insert_ne by done.
  by destruct (Chat.keys sv !! other).
Qed.

Lemma X8_witness :
  (Chat.get "b" (Chat.put "a" "1" Chat.start).1).2 =
    (Chat.get "b" Chat.start).2.
Proof. apply (X8_put_leaves_other_keys Chat.start "a" "1" "b"). done. Defined.

(** X9. [get] answers ["nil\n"] exactly when the map has no such key or
    holds the value ["nil"] for it, so the two cannot be told apart from
    the answer; and [get] leaves the map as it is. *)
Theorem X9_get_answers_nil (sv : Chat.Server) (key : string) :
  ((Chat.get key sv).2 = "nil" ++ Chat.newline ↔
     Chat.keys sv !! key = None ∨ Chat.keys sv !! key = Some "nil") ∧
  Chat.keys (Chat.get key sv).1 = Chat.keys sv.
Proof.
  unfold Chat.get. cbn. destruct (Chat.keys sv !! key) as [k|]; cbn.
  - split; [|done]. split.
    + intros ->%app_newline_inj. by right.
    + by intros [?|[= ->]].
  - split; [|done]. split; [by left|done].
Qed.

(** X10. Whatever the order in which the [range] gives the entries, the
    message of [list] has one line for each entry of the map: its length is
    the sum over the entries of the lengths of key and value plus the 15
    characters around them; and [list] leaves the map as it is. *)
Theorem X10_list_length_is_independent_of_order (sv : Chat.Server)
    (order : list (string * string)) :
  Chat.ranges sv order →
  String.length (Chat.list order sv).2 =
    sum_list_with
      (λ entry, 15 + String.length entry.1 + String.length entry.2)%nat
      (map_to_list (Chat.keys sv)) ∧
  Chat.keys (Chat.list order sv).1 = Chat.keys sv.
Proof.
  intros Hr. split; [|done].
  unfold Chat.list. cbn. rewrite Chat_lines_length. cbn.
  by rewrite Hr.
Qed.

Lemma X10_witness :
  String.length
    (Chat.list [("b", "22"); ("a", "1")]
       (Chat.put "b" "22" (Chat.put "a" "1" Chat.start).1).1).2 =
    sum_list_with
      (λ entry, 15 + String.length entry.1 + String.length entry.2)%nat
      (map_to_list
         (Chat.keys (Chat.put "b" "22" (Chat.put "a" "1" Chat.start).1).1)) ∧
  Chat.keys
    (Chat.list [("b", "22"); ("a", "1")]
       (Chat.put "b" "22" (Chat.put "a" "1" Chat.start).1).1).1 =
    Chat.keys (Chat.put "b" "22" (Chat.put "a" "1" Chat.start).1).1.
Proof.
  apply (X10_list_length_is_independent_of_order
           (Chat.put "b" "22" (Chat.put "a" "1" Chat.start).1).1
           [("b", "22"); ("a", "1")]).
  unfold Chat.ranges. cbn.
  rewrite map_to_list_insert by done.
  by rewrite map_to_list_insert, map_to_list_empty by done.
Defined.

(** ** The commands read from the connection *)

Section Commands.

Variable TrimSpace : string → string.
Variable Split : string → string → list string.

(** X11. When the line read is the one word ["get"], the turn of
    [readInput] writes the question for the key and then, having no
    [else], goes on to [args[1]] and panics on the index out of range; the
    map is as it was. *)
Theorem X11_get_without_key_panics (order : list (string * string))
    (input : string) (err : bool) (sv : Chat.Server) (conn : list string) :
  Split (TrimSpace input) " " = ["get"] →
  ∃ sv',
    Chat.readInput_turn TrimSpace Split order input err sv conn =
      (sv',
       (conn ++ [("what key do you want to get?" ++ Chat.newline)%string])%list,
       true) ∧
    Chat.keys sv' = Chat.keys sv.
Proof.
  intros Hargs. unfold Chat.readInput_turn. rewrite Hargs. cbn.
  eexists. split; [reflexivity|]. by destruct err.
Qed.

(** X12. When the first word of the line read is none of ["get"], ["put"]
    and ["list"] (as when the read failed and gave the empty line), the
    turn writes the help message, does not panic and leaves the map as it
    was. *)
Theorem X12_unknown_command_gets_help (order : list (string * string))
    (input : string) (err : bool) (sv : Chat.Server) (conn : list string)
    (command : string) (rest : list string) :
  Split (TrimSpace input) " " = command :: rest →
  command ≠ "get" → command ≠ "put" → command ≠ "list" →
  ∃ sv',
    Chat.readInput_turn TrimSpace Split order input err sv conn =
      (sv', (conn ++ [Chat.HELP_MSG])%list, false) ∧
    Chat.keys sv' = Chat.keys sv.
Proof.
  intros Hargs Hg Hp Hl. unfold Chat.readInput_turn. rewrite Hargs.
  cbn [lookup list_lookup]. rewrite !decide_False by done.
  eexists. split; [reflexivity|]. by destruct err.
Qed.

(** X13. When the line read is ["put"] with fewer than two words after it,
    the turn writes the error message, does not panic and leaves the map as
    it was. *)
Theorem X13_put_with_too_few_words (order : list (string * string))
    (input : string) (err : bool) (sv : Chat.Server) (conn : list string)
    (rest : list string) :
  Split (TrimSpace input) " " = "put" :: rest →
  (length rest < 2)%nat →
  ∃ sv',
    Chat.readInput_turn TrimSpace Split order input err sv conn =
      (sv',
       (conn ++ [("error: please supply two args: a key and a value"
                  ++ Chat.newline)%string])%list,
       false) ∧
    Chat.keys sv' = Chat.keys sv.
Proof.
  intros Hargs Hlen. unfold Chat.readInput_turn. rewrite Hargs.
  cbn [lookup list_lookup].
  rewrite decide_False, decide_True by done.
  rewrite decide_True by (simpl; lia).
  eexists. split; [reflexivity|]. by destruct err.
Qed.

(** X14. A line ["put"] with a key and a value, then a line ["get"] with
    the same key: neither turn panics, and the second writes the value,
    trimmed, and a newline. *)
Theorem X14_put_then_get_by_commands (order order' : list (string * string))
    (input input' : string) (err err' : bool) (sv : Chat.Server)
    (conn : list string) (key value : string) (more more' : list string) :
  Split (TrimSpace input) " " = "put" :: key :: value :: more →
  Split (TrimSpace input') " " = "get" :: key :: more' →
  ∃ sv1 sv2 reply,
    Chat.readInput_turn TrimSpace Split order input err sv conn =
      (sv1, (conn ++ [reply])%list, false) ∧
    Chat.readInput_turn TrimSpace Split order' input' err' sv1
      (conn ++ [reply])%list =
      (sv2,
       ((conn ++ [reply]) ++ [(TrimSpace value ++ Chat.newline)%string])%list,
       false) ∧
    Chat.keys sv2 = <[TrimSpace key := TrimSpace value]> (Chat.keys sv).
Proof.
  intros Hargs Hargs'.
  destruct err, err'; (eexists _, _, _; split; [|split]).
  all: try by (unfold Chat.readInput_turn; rewrite Hargs;
               cbn [lookup list_lookup];
               rewrite decide_False, decide_True by done;
               rewrite decide_False by (simpl; lia);
               unfold Chat.put; reflexivity).
  all: try by (unfold Chat.readInput_turn; rewrite Hargs';
               cbn [lookup list_lookup];
               rewrite decide_True by done;
               rewrite decide_False by (simpl; lia);
               unfold Chat.get; cbn; rewrite lookup_insert_eq).
  all: done.
Qed.

End Commands.

Lemma X11_witness :
  ∃ sv',
    Chat.readInput_turn Chat.trimSpace (λ s _, Chat.splitSpaces s) []
      ("get" ++ Chat.newline) false Chat.start [] =
      (sv', ["what key do you want to get?" ++ Chat.newline], true) ∧
    Chat.keys sv' = Chat.keys Chat.start.
Proof.
  apply (X11_get_without_key_panics Chat.trimSpace (λ s _, Chat.splitSpaces s)
           [] ("get" ++ Chat.newline) false Chat.start []).
  reflexivity.
Defined.

Lemma X12_witness :
  ∃ sv',
    Chat.readInput_turn Chat.trimSpace (λ s _, Chat.splitSpaces s) []
      "" true Chat.start [] =
      (sv', [Chat.HELP_MSG], false) ∧
    Chat.keys sv' = Chat.keys Chat.start.
Proof.
  apply (X12_unknown_command_gets_help Chat.trimSpace
           (λ s _, Chat.splitSpaces s) [] "" true Chat.start [] "" []);
    [reflexivity|done..].
Defined.

Lemma X13_witness :
  ∃ sv',
    Chat.readInput_turn Chat.trimSpace (λ s _, Chat.splitSpaces s) []
      ("put colour" ++ Chat.newline) false Chat.start [] =
      (sv',
       ["error: please supply two args: a key and a value" ++ Chat.newline],
       false) ∧
    Chat.keys sv' = Chat.keys Chat.start.
Proof.
  apply (X13_put_with_too_few_words Chat.trimSpace (λ s _, Chat.splitSpaces s)
           [] ("put colour" ++ Chat.newline) false Chat.start [] ["colour"]);
    [reflexivity|simpl; lia].
Defined.

Lemma X14_witness :
  ∃ sv1 sv2 reply,
    Chat.readInput_turn Chat.trimSpace (λ s _, Chat.splitSpaces s) []
      ("put colour red" ++ Chat.newline) false Chat.start [] =
      (sv1, [reply], false) ∧
    Chat.readInput_turn Chat.trimSpace (λ s _, Chat.splitSpaces s) []
      ("get colour" ++ Chat.newline) false sv1 [reply] =
      (sv2, [reply; "red" ++ Chat.newline], false) ∧
    Chat.keys sv2 = <["colour" := "red"]> (Chat.keys Chat.start).
Proof.
  apply (X14_put_then_get_by_commands Chat.trimSpace
           (λ s _, Chat.splitSpaces s) [] []
           ("put colour red" ++ Chat.newline) ("get colour" ++ Chat.newline)
           false false Chat.start [] "colour" "red" [] []);
    reflexivity.
Defined.

(** * Actions that hold the machine *)

Section HostActions.

Context {W A : Type}.
Variable Execute :
  A → Host.StateMachine A → W → Host.Executed (Host.StateMachine A) W.

Lemma Host_getNextState_routes (s : Host.StateMachine A) event next :
  Host.getNextState s event = (next, None) →
  Host.routes (Host.States_of s) (Host.Current s) next.
Proof.
  unfold Host.getNextState.
  destruct (Host.States_of s !! Host.Current s) as [state|] eqn:Hs; [|done].
  destruct (Host.Events_of state) as [events|] eqn:He; [|done].
  destruct (events !! event) as [n|] eqn:Hn; [|done].
  intros [= ->]. by exists state, events, event.
Qed.

Lemma Host_getNextState_cases (s : Host.StateMachine A) event :
  (∃ next, Host.getNextState s event = (next, None)) ∨
  Host.getNextState s event = (Default, Some ErrEventRejected).
Proof.
  unfold Host.getNextState.
  destruct (Host.States_of s !! Host.Current s) as [state|]; [|by right].
  destruct (Host.Events_of state) as [events|]; [|by right].
  destruct (events !! event) as [next|]; [left; by exists next|by right].
Qed.

(** The statements of [SendEvent] leave the state collection alone: what
    happens to it during a call is what the actions called do to it. *)
Lemma Host_SendEvent_States fuel (s : Host.StateMachine A) event w r :
  Host.actions_keep_States Execute →
  Host.SendEvent Execute fuel s event w = Some r →
  Host.States_of (Host.machine r) = Host.States_of s.
Proof.
  intros Hkeep. revert s event w r.
  induction fuel as [|fuel IH]; intros s event w r Hr; [done|].
  cbn [Host.SendEvent] in Hr.
  destruct (Host.getNextState s event) as [next [err|]].
  { by injection Hr as <-. }
  destruct (Host.Action_of _) as [action|].
  2: { by injection Hr as <-. }
  pose proof (Hkeep action (Host.transition s next) w) as Hk.
  destruct (Execute action (Host.transition s next) w)
    as [s' w' nextEvent|s' w']; simpl in Hk.
  - destruct (decide (nextEvent = NoOp)).
    + by injection Hr as <-.
    + destruct (Host.SendEvent Execute fuel s' nextEvent w')
        as [r'|] eqn:Hr'; [|done].
      injection Hr as <-. simpl. by rewrite (IH _ _ _ _ Hr').
  - by injection Hr as <-.
Qed.

Lemma Host_SendEvent_nil_panic fuel (s : Host.StateMachine A) event w r :
  Host.SendEvent Execute fuel s event w = Some r →
  Host.outcome r = Host.PanickedOnNilAction →
  ¬ Host.bound (Host.States_of (Host.machine r))
      (Host.Current (Host.machine r)) ∧
  Host.routes (Host.States_of (Host.machine r))
    (Host.Previous (Host.machine r)) (Host.Current (Host.machine r)) ∧
  last (Host.trace r) =
    Some (Host.ObsTransition (Host.Previous (Host.machine r))
            (Host.Current (Host.machine r))) ∧
  hostMoves (Host.trace r) = S (hostCalls (Host.trace r)).
Proof.
  revert s event w r.
  induction fuel as [|fuel IH]; intros s event w r Hr Ho; [done|].
  cbn [Host.SendEvent] in Hr.
  destruct (Host_getNextState_cases s event) as [[next Hn]|Hn];
    rewrite Hn in Hr.
  2: { injection Hr as <-. done. }
  destruct (Host.Action_of (default Host.zeroState
                              (Host.States_of s !! next))) as [action|] eqn:Ha.
  - destruct (Execute action (Host.transition s next) w)
      as [s' w' nextEvent|s' w'].
    + destruct (decide (nextEvent = NoOp)).
      * injection Hr as <-. done.
      * destruct (Host.SendEvent Execute fuel s' nextEvent w')
          as [r'|] eqn:Hr'; [|done].
        injection Hr as <-. simpl in *.
        destruct (IH _ _ _ _ Hr' Ho) as (Hb & Hroute & Hl & Hc).
        repeat split; try done.
        -- by rewrite !last_cons, Hl.
        -- by rewrite Hc.
    + injection Hr as <-. done.
  - injection Hr as <-. simpl. repeat split; try done.
    + intros (state & action & Hs & Hb). rewrite Hs in Ha. simpl in Ha.
      congruence.
    + by apply Host_getNextState_routes in Hn.
Qed.

End HostActions.

(** The actions that act on the world alone, run as host actions, give the
    calls of the framework as modelled above: the two models of [SendEvent]
    agree on them. *)
Lemma Host_SendEvent_pure {W} fuel (s : StateMachine W) event (w : W) :
  Host.SendEvent pureExecute fuel (hostMachine s) event w =
    hostResult <$> SendEvent fuel s event w.
Proof.
  revert s event w. induction fuel as [|fuel IH]; intros s event w; [done|].
  assert (Host.getNextState (hostMachine s) event = getNextState s event)
    as Hg.
  { unfold Host.getNextState, getNextState. simpl. rewrite lookup_fmap.
    by destruct (States_of s !! Current s). }
  assert (∀ next,
            Host.Action_of (default Host.zeroState
                              (Host.States_of (hostMachine s) !! next)) =
            Action_of (default zeroState (States_of s !! next))) as Ha.
  { intros next. simpl. rewrite lookup_fmap.
    by destruct (States_of s !! next). }
  cbn [Host.SendEvent]. rewrite Hg.
  destruct (getNextState_cases s event) as [[next Hn]|Hn]; rewrite Hn.
  - rewrite Ha.
    destruct (Action_of (default zeroState (States_of s !! next)))
      as [action|] eqn:Hact.
    + rewrite (SendEvent_execute _ _ _ _ _ _ Hn Hact). cbv zeta.
      unfold pureExecute at 1.
      destruct (decide ((action w).2 = NoOp)); [done|].
      change (Host.transition (hostMachine s) next)
        with (hostMachine (transition s next)).
      rewrite IH. by destruct (SendEvent fuel (transition s next) _ _).
    + by rewrite (SendEvent_panic _ _ _ _ _ Hn Hact).
  - by rewrite (SendEvent_reject _ _ _ _ Hn).
Qed.

(** Against C8 as stated: the action [Grow] holds the machine it is bound
    in and declares a state in its collection while [SendEvent] runs it;
    the call returns [nil] and the state collection has an entry it did not
    have. *)
Lemma C8_counterexample :
  ∃ r, Host.SendEvent growExecute 1 growing "Start" 0 = Some r ∧
       Host.outcome r = Host.Returned None ∧
       Host.States_of growing !! "Extra" = None ∧
       Host.States_of (Host.machine r) !! "Extra" =
         Some (Host.mkState None None) ∧
       Host.States_of (Host.machine r) ≠ Host.States_of growing.
Proof.
  eexists. split; [vm_compute; reflexivity|]. cbn [Host.machine Host.outcome].
  repeat split; try reflexivity.
  intros H. apply (f_equal (λ m, m !! "Extra")) in H. discriminate H.
Qed.

(** C8, amended. The statements of [SendEvent] never change the state
    collection: for every call that ends, whatever its outcome (success,
    rejection, the panic on a missing action or a panic inside an action),
    if the actions leave the state collection of the machine they run on as
    they find it, the [States] field after the call is the [States] field
    before it, and the machine after the call differs from the machine
    before it in [Previous] and [Current] at most. *)
Theorem C8_SendEvent_itself_never_writes_States {W A}
    (Execute : A → Host.StateMachine A → W →
               Host.Executed (Host.StateMachine A) W)
    fuel (s : Host.StateMachine A) (event : EventType) (w : W)
    (r : Host.Result W A) :
  Host.actions_keep_States Execute →
  Host.SendEvent Execute fuel s event w = Some r →
  Host.States_of (Host.machine r) = Host.States_of s ∧
  Host.machine r = {| Host.Previous := Host.Previous (Host.machine r);
                      Host.Current := Host.Current (Host.machine r);
                      Host.States_of := Host.States_of s |}.
Proof.
  intros Hkeep Hr.
  pose proof (Host_SendEvent_States Execute _ _ _ _ _ Hkeep Hr) as Hs.
  split; [done|]. rewrite <- Hs. by destruct (Host.machine r).
Qed.

Lemma faultyExecute_keeps_States : Host.actions_keep_States faultyExecute.
Proof. by intros action s w. Qed.

Lemma C8_witness :
  Host.States_of (Host.transition faulty "Broken") = Host.States_of faulty ∧
  Host.transition faulty "Broken" =
    {| Host.Previous := ""; Host.Current := "Broken";
       Host.States_of := Host.States_of faulty |}.
Proof.
  apply (C8_SendEvent_itself_never_writes_States faultyExecute 1 faulty
           "Break" 0
           {| Host.machine := Host.transition faulty "Broken";
              Host.world := 1;
              Host.trace := [Host.ObsTransition "" "Broken";
                             Host.ObsExecutePanic "Broken"];
              Host.outcome := Host.PanickedInAction |}
           faultyExecute_keeps_States).
  vm_compute. reflexivity.
Defined.

(** X2. A call of [SendEvent] that panics on the call of a missing action
    (the destination is not declared, or is declared without one) has just
    assigned [Previous] and [Current]: the machine is left in a state that
    is not declared with an action bound, to which an entry of the
    transition table of [Previous] leads; the assignment is the last thing
    the call did, so that there is one more assignment than action calls.
    This holds whatever the actions called before did to the machine; a
    panic raised inside an action is another outcome. *)
Theorem X2_nil_action_panic_leaves_machine_in_unbound_state {W A}
    (Execute : A → Host.StateMachine A → W →
               Host.Executed (Host.StateMachine A) W)
    fuel (s : Host.StateMachine A) (event : EventType) (w : W)
    (r : Host.Result W A) :
  Host.SendEvent Execute fuel s event w = Some r →
  Host.outcome r = Host.PanickedOnNilAction →
  ¬ Host.bound (Host.States_of (Host.machine r))
      (Host.Current (Host.machine r)) ∧
  Host.routes (Host.States_of (Host.machine r))
    (Host.Previous (Host.machine r)) (Host.Current (Host.machine r)) ∧
  last (Host.trace r) =
    Some (Host.ObsTransition (Host.Previous (Host.machine r))
            (Host.Current (Host.machine r))) ∧
  hostMoves (Host.trace r) = S (hostCalls (Host.trace r)).
Proof. apply Host_SendEvent_nil_panic. Qed.

Lemma X2_witness :
  ¬ Host.bound (Host.States_of faulty) "Lost" ∧
  Host.routes (Host.States_of faulty) "" "Lost" ∧
  last [Host.ObsTransition "" "Lost"] = Some (Host.ObsTransition "" "Lost") ∧
  hostMoves [Host.ObsTransition "" "Lost"] =
    S (hostCalls [Host.ObsTransition "" "Lost"]).
Proof.
  apply (X2_nil_action_panic_leaves_machine_in_unbound_state faultyExecute 1
           faulty "Lose" 0
           {| Host.machine := Host.transition faulty "Lost";
              Host.world := 0;
              Host.trace := [Host.ObsTransition "" "Lost"];
              Host.outcome := Host.PanickedOnNilAction |});
    reflexivity.
Defined.

(** A panic inside an action, by contrast, leaves the machine in the state
    of that action, which is declared with an action bound. *)
Example panic_in_action_rests_in_bound_state :
  ∃ r, Host.SendEvent faultyExecute 1 faulty "Break" 0 = Some r ∧
       Host.outcome r = Host.PanickedInAction ∧
       Host.bound (Host.States_of (Host.machine r))
         (Host.Current (Host.machine r)).
Proof.
  eexists. split; [vm_compute; reflexivity|]. split; [done|].
  by exists (Host.mkState (Some Faulty) None), Faulty.
Qed.
